(** * govuk_crawler_worker: broker connection, dedup store client, link extraction

    A shallow embedding of
    - [queue/queue_connection.go]  (module [Queue]),
    - [crawler/extract_urls.go]    (module [Crawler]),
    - the [ttl_hash_set] package   (module [TTLHashSet]),
    followed by the properties of each component. *)

From Stdlib Require Import ZArith NArith Lia Ascii String.
From stdpp Require Import base option list strings gmap.

Open Scope string_scope.
Open Scope list_scope.

(** ** Go values shared by the three packages *)

(** A non-nil Go [error]; [nil] is [None] of [option error]. *)
Inductive error : Type := Err (msg : string).

Global Instance error_eq_dec : EqDecision error.
Proof. solve_decision. Defined.

(** * queue/queue_connection.go *)
Module Queue.

(** [amqp.Publishing], the fields [Publish] sets. *)
Record Publishing := {
  Headers : list (string * string);
  ContentType : string;
  ContentEncoding : string;
  Body : string;
  DeliveryMode : N;
  Priority : N
}.

(** [amqp.Persistent] *)
Definition Persistent : N := 2.

(** Calls that leave the package: methods of the amqp connection and
    channel, and the [log] package. *)
Inductive Call : Type :=
  | AmqpDial (amqpURI : string)
  | ConnectionChannel
  | ChannelConfirm (noWait : bool)
  | ChannelNotifyConfirm (ackCap nackCap : nat)
  | ChannelClose
  | ConnectionClose
  | ChannelPublish (exchange key : string) (mandatory immediate : bool)
                   (msg : Publishing)
  | ChannelAck (tag : N) (multiple : bool)
  | ChannelNack (tag : N) (multiple requeue : bool)
  | LogPrintln (msg : string) (tag : N)
  | LogFatal (msg : string) (tag : N) (err : error).

(** A publisher confirm sent by the broker for one delivery tag. *)
Inductive Confirm : Type :=
  | Ack (tag : N)
  | Nack (tag : N).

Definition confirm_tag (cf : Confirm) : N :=
  match cf with Ack t | Nack t => t end.

Definition is_ack (cf : Confirm) : bool :=
  match cf with Ack _ => true | Nack _ => false end.

Global Instance Confirm_eq_dec : EqDecision Confirm.
Proof. solve_decision. Defined.

(** The state the methods of one [QueueConnection] act on.
    [ack] and [nack] are the contents of the two buffered Go channels of
    the struct (oldest first); [chanCap] is their capacity, fixed by
    [NewQueueConnection]. [trace] lists the outgoing calls in order.
    [publishSeq] is the confirm-mode counter the amqp channel keeps: the
    delivery tag of the latest publish (a uint64). *)
Record World := {
  trace : list Call;
  ack : list N;
  nack : list N;
  chanCap : nat;
  publishSeq : N
}.

Definition uint64_mod : N := 2 ^ 64.

Definition emit (c : Call) (w : World) : World :=
  {| trace := trace w ++ [c]; ack := ack w; nack := nack w;
     chanCap := chanCap w; publishSeq := publishSeq w |}.

Definition set_ack (l : list N) (w : World) : World :=
  {| trace := trace w; ack := l; nack := nack w;
     chanCap := chanCap w; publishSeq := publishSeq w |}.

Definition set_nack (l : list N) (w : World) : World :=
  {| trace := trace w; ack := ack w; nack := l;
     chanCap := chanCap w; publishSeq := publishSeq w |}.

Definition next_tag (w : World) : N := (publishSeq w + 1) mod uint64_mod.

Definition bump_seq (w : World) : World :=
  {| trace := trace w; ack := ack w; nack := nack w;
     chanCap := chanCap w; publishSeq := next_tag w |}.

(** How a Go call ends: it returns, the process exits through
    [log.Fatal], or a [select] has no ready case and the goroutine
    waits. *)
Inductive outcome (A : Type) : Type :=
  | Returned (a : A) (w : World)
  | Fatal (w : World)
  | Blocked (w : World).
Arguments Returned {A} a w.
Arguments Fatal {A} w.
Arguments Blocked {A} w.

Definition M (A : Type) : Type := World -> outcome A.

Definition ret {A} (a : A) : M A := fun w => Returned a w.

Definition bind {A B} (m : M A) (k : A -> M B) : M B :=
  fun w =>
    match m w with
    | Returned a w' => k a w'
    | Fatal w' => Fatal w'
    | Blocked w' => Blocked w'
    end.

Notation "'do' x <- m ; k" := (bind m (fun x => k))
  (at level 10, x name, m at level 100, k at level 200).
Notation "'run' m ; k" := (bind m (fun _ => k))
  (at level 10, m at level 100, k at level 200).

(** The final world of an outcome, whatever its kind. *)
Definition world_of {A} (o : outcome A) : World :=
  match o with Returned _ w | Fatal w | Blocked w => w end.

Section WithEnv.

(** What the amqp library answers to a call, given the calls made so
    far: [None] is a nil error. *)
Variable env : list Call -> Call -> option error.

(** An outgoing call that returns an error value. *)
Definition call (c : Call) : M (option error) :=
  fun w => Returned (env (trace w) c) (emit c w).

(** [log.Println] *)
Definition logPrintln (msg : string) (tag : N) : M unit :=
  fun w => Returned tt (emit (LogPrintln msg tag) w).

(** [log.Fatal]: prints, then [os.Exit(1)]. *)
Definition logFatal {A} (msg : string) (tag : N) (e : error) : M A :=
  fun w => Fatal (emit (LogFatal msg tag e) w).

(** [c.Channel.Publish]: in confirm mode a publish the library accepts
    takes the next delivery tag. *)
Definition channelPublish (exchange key : string) (mandatory immediate : bool)
    (msg : Publishing) : M (option error) :=
  fun w =>
    let c := ChannelPublish exchange key mandatory immediate msg in
    match env (trace w) c with
    | None => Returned None (bump_seq (emit c w))
    | Some e => Returned (Some e) (emit c w)
    end.

(** The [select] of [publisherConfirm]: a receive from [c.ack] or from
    [c.nack]. With one ready case that case runs; with both ready Go
    picks one at random ([pickAck] is that pick); with none the
    goroutine waits. *)
Definition selectConfirm (pickAck : bool) : M Confirm :=
  fun w =>
    match ack w, nack w with
    | [], [] => Blocked w
    | t :: rest, [] => Returned (Ack t) (set_ack rest w)
    | [], t :: rest => Returned (Nack t) (set_nack rest w)
    | ta :: resta, tn :: restn =>
        if pickAck then Returned (Ack ta) (set_ack resta w)
        else Returned (Nack tn) (set_nack restn w)
    end.

(** [func publisherConfirm(c *QueueConnection)] *)
Definition publisherConfirm (pickAck : bool) : M unit :=
  do cf <- selectConfirm pickAck;
  match cf with
  | Ack tag =>
      run logPrintln "Acknowledge message publish:" tag;
      do err <- call (ChannelAck tag false);
      match err with
      | Some e => logFatal "Couldn't ack:" tag e
      | None => ret tt
      end
  | Nack tag =>
      run logPrintln "Couldn't acknowledge message publish:" tag;
      do err <- call (ChannelNack tag false true);
      match err with
      | Some e => logFatal "Couldn't nack:" tag e
      | None => ret tt
      end
  end.

(** The message [Publish] builds. *)
Definition publishing (contentType body : string) : Publishing :=
  {| Headers := [];
     ContentType := contentType;
     ContentEncoding := "";
     Body := body;
     DeliveryMode := Persistent;
     Priority := 0 |}.

(** First half of [Publish]: the operand of [return] is evaluated, that
    is [c.Channel.Publish] is called and its result kept. *)
Definition publishCall (exchangeName routingKey contentType body : string)
    : M (option error) :=
  channelPublish exchangeName routingKey false false
    (publishing contentType body).

(** Second half of [Publish]: the deferred [publisherConfirm(c)] runs,
    then the kept result is returned. *)
Definition publishDeferred (pickAck : bool) (result : option error)
    : M (option error) :=
  run publisherConfirm pickAck;
  ret result.

(** The amqp library's goroutine hands a confirm to the listener
    channel registered with [NotifyConfirm]; the send waits ([None])
    while the buffer is full. *)
Definition deliver (cf : Confirm) (w : World) : option World :=
  match cf with
  | Ack t =>
      if decide (length (ack w) < chanCap w)%nat
      then Some (set_ack (ack w ++ [t]) w) else None
  | Nack t =>
      if decide (length (nack w) < chanCap w)%nat
      then Some (set_nack (nack w ++ [t]) w) else None
  end.

(** Confirms delivered one after the other; one that finds its buffer
    full stays with the library and the later ones behind it. *)
Fixpoint deliverAll (cfs : list Confirm) (w : World) : World :=
  match cfs with
  | [] => w
  | cf :: rest =>
      match deliver cf w with
      | Some w' => deliverAll rest w'
      | None => w
      end
  end.

(** [func (c *QueueConnection) Publish(exchangeName, routingKey,
    contentType, body string) error], run by one goroutine alone:
    [arrivals] are the confirms the library delivers between the return
    of [c.Channel.Publish] and the deferred [select]. *)
Definition Publish (pickAck : bool) (arrivals : list Confirm)
    (exchangeName routingKey contentType body : string) : M (option error) :=
  do result <- publishCall exchangeName routingKey contentType body;
  (fun w => publishDeferred pickAck result (deliverAll arrivals w)).

(** [func (c *QueueConnection) Close() error] *)
Definition Close : M (option error) :=
  do err <- call ChannelClose;
  match err with
  | Some e => ret (Some e)
  | None => call ConnectionClose
  end.

(** [func NewQueueConnection(amqpURI string)], returning a connection and an
    error:
    [true] stands for the non-nil connection whose channels are the
    (empty) [ack] and [nack] of the world. *)
Definition NewQueueConnection (amqpURI : string) : M (bool * option error) :=
  do err <- call (AmqpDial amqpURI);
  match err with
  | Some e => ret (false, Some e)
  | None =>
      do err <- call ConnectionChannel;
      match err with
      | Some e => ret (false, Some e)
      | None =>
          do err <- call (ChannelConfirm false);
          match err with
          | Some e => ret (false, Some e)
          | None =>
              (fun w =>
                 Returned (true, None)
                   {| trace := trace w ++ [ChannelNotifyConfirm 1 1];
                      ack := []; nack := []; chanCap := 1;
                      publishSeq := 0 |})
          end
      end
  end.

(** *** Several goroutines calling [Publish] on one connection *)

(** A goroutine that calls [Publish] once. [own] is the delivery tag the
    amqp channel gave its publish ([None] when the library refused it);
    the Go code never sees that tag, it is kept here to state what the
    goroutine should wait for. [calls] are the outgoing calls of its
    deferred [publisherConfirm]. *)
Inductive Goroutine : Type :=
  | NotStarted
  | InFlight (own : option N) (result : option error)
  | Finished (own : option N) (calls : list Call) (result : option error)
  | Exited (own : option N) (calls : list Call).

(** One connection shared by goroutines; [unconfirmed] are the delivery
    tags the broker has not confirmed yet and [sent] the confirms it has
    sent, oldest first. *)
Record System := {
  world : World;
  goroutines : list Goroutine;
  unconfirmed : list N;
  sent : list Confirm
}.

Inductive Event : Type :=
  | GoPublishCall (g : nat) (exchangeName routingKey contentType body : string)
  | BrokerConfirm (cf : Confirm)
  | GoDeferred (g : nat) (pickAck : bool).

(** The calls appended to the trace between two worlds. *)
Definition new_calls (w w' : World) : list Call :=
  drop (length (trace w)) (trace w').

(** One atomic step; [None] when the event cannot happen in this
    state (the goroutine is elsewhere, the [select] or the library's
    send would wait, the broker has nothing to confirm under that
    tag). *)
Definition step (ev : Event) (s : System) : option System :=
  match ev with
  | GoPublishCall g ex key ct body =>
      match goroutines s !! g with
      | Some NotStarted =>
          match publishCall ex key ct body (world s) with
          | Returned None w' =>
              Some {| world := w';
                      goroutines :=
                        <[g := InFlight (Some (publishSeq w')) None]>
                          (goroutines s);
                      unconfirmed := unconfirmed s ++ [publishSeq w'];
                      sent := sent s |}
          | Returned (Some e) w' =>
              Some {| world := w';
                      goroutines :=
                        <[g := InFlight None (Some e)]> (goroutines s);
                      unconfirmed := unconfirmed s;
                      sent := sent s |}
          | _ => None
          end
      | _ => None
      end
  | BrokerConfirm cf =>
      if decide (confirm_tag cf ∈ unconfirmed s) then
        match deliver cf (world s) with
        | Some w' =>
            Some {| world := w';
                    goroutines := goroutines s;
                    unconfirmed :=
                      filter (fun t => t ≠ confirm_tag cf) (unconfirmed s);
                    sent := sent s ++ [cf] |}
        | None => None
        end
      else None
  | GoDeferred g pickAck =>
      match goroutines s !! g with
      | Some (InFlight own result) =>
          match publishDeferred pickAck result (world s) with
          | Returned r w' =>
              Some {| world := w';
                      goroutines :=
                        <[g := Finished own (new_calls (world s) w') r]>
                          (goroutines s);
                      unconfirmed := unconfirmed s;
                      sent := sent s |}
          | Fatal w' =>
              Some {| world := w';
                      goroutines :=
                        <[g := Exited own (new_calls (world s) w')]>
                          (goroutines s);
                      unconfirmed := unconfirmed s;
                      sent := sent s |}
          | Blocked _ => None
          end
      | _ => None
      end
  end.

Fixpoint exec (evs : list Event) (s : System) : option System :=
  match evs with
  | [] => Some s
  | ev :: rest =>
      match step ev s with
      | Some s' => exec rest s'
      | None => None
      end
  end.

End WithEnv.

(** The confirm a run of [publisherConfirm] handled, read off the calls
    it made: the tag it passed to [Channel.Ack] or [Channel.Nack]. *)
Fixpoint handled (calls : list Call) : option Confirm :=
  match calls with
  | [] => None
  | ChannelAck t _ :: _ => Some (Ack t)
  | ChannelNack t _ _ :: _ => Some (Nack t)
  | _ :: rest => handled rest
  end.

(** The call and the log line [publisherConfirm] makes for a confirm. *)
Definition confirm_call (cf : Confirm) : Call :=
  match cf with
  | Ack t => ChannelAck t false
  | Nack t => ChannelNack t false true
  end.

Definition confirm_log (cf : Confirm) : Call :=
  match cf with
  | Ack t => LogPrintln "Acknowledge message publish:" t
  | Nack t => LogPrintln "Couldn't acknowledge message publish:" t
  end.

Definition confirm_fatal (cf : Confirm) (e : error) : Call :=
  match cf with
  | Ack t => LogFatal "Couldn't ack:" t e
  | Nack t => LogFatal "Couldn't nack:" t e
  end.

(** Every finished goroutine handled the confirm the broker sent for
    its own delivery tag. *)
Definition each_resolves_own (s : System) : Prop :=
  forall g own calls r,
    goroutines s !! g = Some (Finished (Some own) calls r) ->
    exists cf, handled calls = Some cf /\ confirm_tag cf = own /\ cf ∈ sent s.

(** The world of a connection just returned by [NewQueueConnection]. *)
Definition fresh : World :=
  {| trace := []; ack := []; nack := []; chanCap := 1; publishSeq := 0 |}.

(** An amqp library whose every call succeeds. *)
Definition env_ok : list Call -> Call -> option error := fun _ _ => None.

(** An amqp library whose [Channel.Ack] and [Channel.Nack] fail. *)
Definition env_confirm_fails : list Call -> Call -> option error :=
  fun _ c =>
    match c with
    | ChannelAck _ _ | ChannelNack _ _ _ => Some (Err "channel/connection is not open")
    | _ => None
    end.

(** [n] goroutines about to call [Publish] on a fresh connection. *)
Definition start (n : nat) : System :=
  {| world := fresh; goroutines := replicate n NotStarted;
     unconfirmed := []; sent := [] |}.

(** Two concurrent [Publish] calls; the broker nacks the first publish
    and acks the second, and its confirms arrive in the reverse of the
    publish order. *)
Definition scenario_D : list Event :=
  [ GoPublishCall 0 "ex" "a" "text/plain" "first";
    GoPublishCall 1 "ex" "b" "text/plain" "second";
    BrokerConfirm (Ack 2);
    GoDeferred 0 true;
    BrokerConfirm (Nack 1);
    GoDeferred 1 true ].

End Queue.

(** * crawler/extract_urls.go *)
Module Crawler.

(** A Go slice of strings: [nil], or a slice with its elements. *)
Inductive slice : Type :=
  | nilSlice
  | Slice (elems : list string).

Definition elems_of (s : slice) : list string :=
  match s with nilSlice => [] | Slice l => l end.

(** [append(s, xs...)] *)
Definition append (s : slice) (xs : list string) : slice :=
  match s with
  | Slice l => Slice (l ++ xs)
  | nilSlice => match xs with [] => nilSlice | _ => Slice xs end
  end.

(** The parsed document, as goquery sees it: element nodes with their
    attributes in source order, and the other nodes (text, comments). *)
#[warnings="-register-all"]
Inductive Node : Type :=
  | ElementNode (tag : string) (attr : list (string * string))
                (children : list Node)
  | OtherNode (data : string).

Definition Document : Type := list Node.

(** [Selection.Find] with a tag-name selector, on one subtree: the
    matching elements in document order. *)
Fixpoint findIn (element : string) (n : Node) : list Node :=
  match n with
  | ElementNode tag _ children =>
      (if decide (tag = element) then [n] else [])
        ++ flat_map (findIn element) children
  | OtherNode _ => []
  end.

(** [document.Find(element)] *)
Definition Find (element : string) (document : Document) : list Node :=
  flat_map (findIn element) document.

Fixpoint getAttributeValue (attrName : string) (attrs : list (string * string))
    : string * bool :=
  match attrs with
  | [] => ("", false)
  | (k, v) :: rest =>
      if decide (k = attrName) then (v, true)
      else getAttributeValue attrName rest
  end.

(** [Selection.Attr]: the value of the first attribute of that name and
    whether there is one. *)
Definition Attr (attrName : string) (n : Node) : string * bool :=
  match n with
  | ElementNode _ attrs _ => getAttributeValue attrName attrs
  | OtherNode _ => ("", false)
  end.

(** [url.URL], the field the crawler reads. *)
Record URL := { Scheme : string; Host : string; Rest : string }.

(** How a call of this package ends: it returns, or [log.Fatal] ends
    the process with the error it printed. *)
Inductive result (A : Type) : Type :=
  | Return (a : A)
  | Exit (err : error).
Arguments Return {A} a.
Arguments Exit {A} err.

Section WithLibraries.

(** The [io.Reader] handed to [ExtractURLs], and
    [goquery.NewDocumentFromReader] reading and parsing it. *)
Variable Reader : Type.
Variable NewDocumentFromReader : Reader -> Document + error.

(** [url.Parse] of the standard library. *)
Variable url_Parse : string -> URL + error.

(** The body of the closure passed to [Each], over the selection in
    order; [urls] is the captured slice. *)
Fixpoint each (host attr : string) (selection : list Node) (urls : slice)
    : result slice :=
  match selection with
  | [] => Return urls
  | element :: rest =>
      let '(href, exists_) := Attr attr element in
      match url_Parse href with
      | inr err => Exit err
      | inl u =>
          if exists_ && bool_decide (Host u = host)
          then each host attr rest (append urls [href])
          else each host attr rest urls
      end
  end.

(** [func findByElementAttribute(document, host, element, attr)] *)
Definition findByElementAttribute (document : Document)
    (host element attr : string) : result slice :=
  each host attr (Find element document) (Slice []).

Definition urlElementMatches : list (string * string) :=
  [("a", "href"); ("img", "src"); ("link", "href"); ("script", "src")].

(** The [for _, attr := range urlElementMatches] loop. *)
Fixpoint rangeMatches (document : Document) (host : string)
    (matches : list (string * string)) (urls : slice) : result slice :=
  match matches with
  | [] => Return urls
  | (element, attr) :: rest =>
      match findByElementAttribute document host element attr with
      | Exit err => Exit err
      | Return found =>
          rangeMatches document host rest (append urls (elems_of found))
      end
  end.

(** [func ExtractURLs(body io.Reader, host string) ([]string, error)] *)
Definition ExtractURLs (body : Reader) (host : string)
    : result (slice * option error) :=
  match NewDocumentFromReader body with
  | inr err => Return (Slice [], Some err)
  | inl document =>
      match rangeMatches document host urlElementMatches (Slice []) with
      | Exit e => Exit e
      | Return urls => Return (urls, None)
      end
  end.

(** *** What the description of [ExtractURLs] says *)

(** The value of attribute [attr] on an element that has it and whose
    value parses to a URL with host [host]. *)
Definition matching_value (host attr : string) (n : Node) : list string :=
  match Attr attr n with
  | (v, true) =>
      match url_Parse v with
      | inl u => if decide (Host u = host) then [v] else []
      | inr _ => []
      end
  | (_, false) => []
  end.

(** The [element[attr]] values with that host, in document order. *)
Definition values_of (document : Document) (host : string)
    (m : string * string) : list string :=
  flat_map (matching_value host (snd m)) (Find (fst m) document).

(** All of them, grouped [a[href]], [img[src]], [link[href]],
    [script[src]]. *)
Definition described_urls (document : Document) (host : string)
    : list string :=
  flat_map (values_of document host) urlElementMatches.

(** Every attribute value [ExtractURLs] hands to [url.Parse] parses. *)
Definition all_parse (document : Document) : Prop :=
  forall element attr n,
    (element, attr) ∈ urlElementMatches ->
    n ∈ Find element document ->
    exists u, url_Parse (fst (Attr attr n)) = inl u.

End WithLibraries.

(** *** A reading of [net/url.Parse]

    The steps of [url.Parse] that decide the host of the links below:
    the fragment and the query are cut off, [getScheme] splits the
    scheme (a leading colon is the error "missing protocol scheme"), and
    an authority after [//] gives the host, without user information. *)
Module NetURL.

Definition is_letter (c : ascii) : bool :=
  let n := nat_of_ascii c in
  ((97 <=? n) && (n <=? 122) || (65 <=? n) && (n <=? 90))%nat.

Definition is_scheme_symbol (c : ascii) : bool :=
  let n := nat_of_ascii c in
  ((48 <=? n) && (n <=? 57) || (n =? 43) || (n =? 45) || (n =? 46))%nat.

(** Cut [s] at the first [sep]: the part before it and, when [sep]
    occurs, the part after it. *)
Fixpoint cut (sep : ascii) (s : string) : string * option string :=
  match s with
  | EmptyString => (EmptyString, None)
  | String c rest =>
      if decide (c = sep) then (EmptyString, Some rest)
      else let '(before, after) := cut sep rest in (String c before, after)
  end.

(** [getScheme]: [i] is the index of the first character of [s] in
    [rawURL]. *)
Fixpoint getScheme (i : nat) (rawURL s : string)
    : (string * string) + error :=
  match s with
  | EmptyString => inl ("", rawURL)
  | String c rest =>
      if is_letter c then getScheme (S i) rawURL rest
      else if is_scheme_symbol c then
        match i with
        | O => inl ("", rawURL)
        | _ => getScheme (S i) rawURL rest
        end
      else if decide (c = ":"%char) then
        match i with
        | O => inr (Err "missing protocol scheme")
        | _ => inl (String.substring 0 i rawURL, rest)
        end
      else inl ("", rawURL)
  end.

(** What follows the last [sep] of [s], when [sep] occurs. *)
Fixpoint afterLast (sep : ascii) (s : string) : option string :=
  match s with
  | EmptyString => None
  | String c rest =>
      match afterLast sep rest with
      | Some r => Some r
      | None => if decide (c = sep) then Some rest else None
      end
  end.

(** The host of an authority: what follows the last [@]. *)
Definition hostOf (authority : string) : string :=
  match afterLast "@"%char authority with
  | Some h => h
  | None => authority
  end.

Definition Parse (rawURL : string) : URL + error :=
  let '(u, _) := cut "#"%char rawURL in
  match getScheme 0 u u with
  | inr e => inr e
  | inl (scheme, rest) =>
      let '(rest, _) := cut "?"%char rest in
      if (negb (bool_decide (scheme = "")) || negb (String.prefix "///" rest))
           && String.prefix "//" rest
      then
        let '(authority, path) := cut "/"%char (String.substring 2 (String.length rest - 2) rest) in
        inl {| Scheme := scheme; Host := hostOf authority;
               Rest := match path with Some p => String "/" p | None => "" end |}
      else inl {| Scheme := scheme; Host := ""; Rest := rest |}
  end.

End NetURL.

(** A reader over a document that is already parsed, or that fails. *)
Definition readParsed (body : Document + error) : Document + error := body.

(** [<a href=":">broken</a>] *)
Definition broken_link : Document :=
  [ElementNode "html" []
     [ElementNode "head" [] [];
      ElementNode "body" []
        [ElementNode "a" [("href", ":")] [OtherNode "broken"]]]].

(** A page of www.gov.uk with links to it and elsewhere. *)
Definition sample_page : Document :=
  [ElementNode "html" []
     [ElementNode "head" []
        [ElementNode "link" [("rel", "stylesheet"); ("href", "https://www.gov.uk/main.css")] [];
         ElementNode "script" [("src", "//www.gov.uk/app.js")] []];
      ElementNode "body" []
        [ElementNode "a" [("href", "https://www.gov.uk/bank-holidays")]
           [ElementNode "img" [("src", "https://assets.example.com/logo.png")] []];
         ElementNode "a" [("name", "top")] [];
         ElementNode "a" [("href", "/relative")] [];
         ElementNode "img" [("src", "https://www.gov.uk/crown.png")] []]]].

End Crawler.

(** * ttl_hash_set

    The implementation of the package is not among the sources, its
    test suite is. The client below follows the written description of
    the Dedup Store Client. *)
Module TTLHashSet.

Local Open Scope Z_scope.

(** Modelled from the spec: the error taxonomy of the Dedup Store
    Client (the package's error values are missing). *)
Inductive ErrorClass : Type :=
  | ConnectionError
  | TransportError
  | ReconnectingError
  | ProtocolError.

Global Instance ErrorClass_eq_dec : EqDecision ErrorClass.
Proof. solve_decision. Defined.

(** Modelled from the spec: the connection state of a client (the
    [TTLHashSet] struct is missing). *)
Inductive ConnState : Type :=
  | Disconnected
  | Connected
  | Reconnecting
  | Closed.

(** Modelled from the spec: the [TTLHashSet] struct, which is missing:
    the namespace prefix, the store address, the connection state and
    the instant of the supervisor's next dial attempt. *)
Record Client := {
  prefix : string;
  address : string;
  state : ConnState;
  nextDial : Z
}.

(** Modelled from the spec: the key-value service and the network as the
    client meets them. [store] maps a stored key to its expiry instant
    ([None]: no expiry set); [linkUp] tells whether the socket the
    client holds still works; [dials] counts the dial attempts made. *)
Record Service := {
  now : Z;
  store : gmap string (option Z);
  linkUp : bool;
  dials : nat
}.

Definition set_state (s : ConnState) (next : Z) (c : Client) : Client :=
  {| prefix := prefix c; address := address c; state := s; nextDial := next |}.

Definition set_store (st : gmap string (option Z)) (w : Service) : Service :=
  {| now := now w; store := st; linkUp := linkUp w; dials := dials w |}.

Definition set_now (t : Z) (w : Service) : Service :=
  {| now := t; store := store w; linkUp := linkUp w; dials := dials w |}.

Definition dialled (up : bool) (w : Service) : Service :=
  {| now := now w; store := store w; linkUp := up; dials := S (dials w) |}.

(** The established connection is cut (the peer resets it, the proxy
    in front of the store kills it). *)
Definition breakLink (w : Service) : Service :=
  {| now := now w; store := store w; linkUp := false; dials := dials w |}.

(** Modelled from the spec: the Dedup Key, a composite of the prefix
    and the caller's string. *)
Definition compositeKey (pre key : string) : string :=
  pre +:+ ":" +:+ key.

(** Modelled from the spec: presence of a Dedup Key in the store, which
    the missing client queries: the key is stored and unexpired at
    instant [t]. *)
Definition live (st : gmap string (option Z)) (t : Z) (k : string) : bool :=
  match st !! k with
  | Some (Some expiry) => bool_decide (t < expiry)
  | Some None => true
  | None => false
  end.

(** Modelled from the spec: the operations of the missing client. *)
Inductive Op : Type :=
  | OpAdd (key : string)
  | OpExists (key : string)
  | OpTTL (key : string)
  | OpPing.

(** Modelled from the spec: what an operation of the missing client
    returns beside its error: a flag, a duration or the probe's
    reply. *)
Inductive Reply : Type :=
  | RBool (b : bool)
  | RDuration (d : Z)
  | RString (s : string).

(** Modelled from the spec: what a call returns beside its error when
    it fails: [false], a negative duration, no reply. *)
Definition failed (op : Op) : Reply :=
  match op with
  | OpAdd _ | OpExists _ => RBool false
  | OpTTL _ => RDuration (-1)
  | OpPing => RString ""
  end.

(** The result is the negative or false one. *)
Definition negative (r : Reply) : bool :=
  match r with
  | RBool b => negb b
  | RDuration d => bool_decide (d < 0)
  | RString s => bool_decide (s = "")
  end.

Section WithConfig.

(** The configured time to live of a key and the supervisor's polling
    interval. *)
Variable ttl : Z.
Variable pollInterval : Z.

(** Whether a dial to an address succeeds at an instant. *)
Variable reachable : string -> Z -> bool.

(** Modelled from the spec: the store wire contract, which the missing
    client speaks: the conditional insert with expiry, the existence
    query, the signed TTL query (negative: absent or no expiry) and the
    liveness probe. *)
Definition serve (pre : string) (op : Op) (w : Service) : Reply * Service :=
  match op with
  | OpAdd key =>
      let k := compositeKey pre key in
      if live (store w) (now w) k then (RBool false, w)
      else (RBool true, set_store (<[k := Some (now w + ttl)]> (store w)) w)
  | OpExists key =>
      (RBool (live (store w) (now w) (compositeKey pre key)), w)
  | OpTTL key =>
      match store w !! compositeKey pre key with
      | Some (Some expiry) =>
          if bool_decide (now w < expiry)
          then (RDuration (expiry - now w), w)
          else (RDuration (-2), w)
      | Some None => (RDuration (-1), w)
      | None => (RDuration (-2), w)
      end
  | OpPing => (RString "PONG", w)
  end.

(** Modelled from the spec: one operation of the missing client, under
    the reconnection protocol. Connected with a working socket, the
    store answers. Connected with a dead socket, the call returns the
    transport error at once and starts the supervisor, whose first dial
    is one polling interval away. While the supervisor reconnects, the
    call fails at once with the reconnecting error. A client that is
    closed or was never connected has no socket to use. *)
Definition call (op : Op) (c : Client) (w : Service)
    : (Reply * option ErrorClass) * Client * Service :=
  match state c with
  | Connected =>
      if linkUp w then
        let '(r, w') := serve (prefix c) op w in ((r, None), c, w')
      else
        ((failed op, Some TransportError),
         set_state Reconnecting (now w + pollInterval) c, w)
  | Reconnecting => ((failed op, Some ReconnectingError), c, w)
  | Disconnected | Closed => ((failed op, Some TransportError), c, w)
  end.

Definition asBool (r : Reply) : bool :=
  match r with RBool b => b | _ => false end.


Definition asString (r : Reply) : string :=
  match r with RString s => s | _ => "" end.

(** Modelled from the spec: [Add(key)], of the missing client. *)
Definition Add (key : string) (c : Client) (w : Service)
    : (bool * option ErrorClass) * Client * Service :=
  let '((r, e), c', w') := call (OpAdd key) c w in ((asBool r, e), c', w').

(** Modelled from the spec: [Exists(key)], of the missing client. *)
Definition Exists (key : string) (c : Client) (w : Service)
    : (bool * option ErrorClass) * Client * Service :=
  let '((r, e), c', w') := call (OpExists key) c w in ((asBool r, e), c', w').


(** Modelled from the spec: [Ping()], of the missing client. *)
Definition Ping (c : Client) (w : Service)
    : (string * option ErrorClass) * Client * Service :=
  let '((r, e), c', w') := call OpPing c w in ((asString r, e), c', w').

(** Modelled from the spec: the constructor of the missing client
    ([NewTTLHashSet] in the tests, [Open] in the description): one
    eager dial; without a connection there is no client. *)
Definition NewTTLHashSet (pre addr : string) (w : Service)
    : option Client * option ErrorClass * Service :=
  if reachable addr (now w) then
    (Some {| prefix := pre; address := addr; state := Connected;
             nextDial := now w |},
     None, dialled true w)
  else (None, Some ConnectionError, dialled (linkUp w) w).

(** Modelled from the spec: [Close()], of the missing client: the
    connection is released and the supervisor stops. *)
Definition Close (c : Client) : Client := set_state Closed (nextDial c) c.

(** Modelled from the spec: the reconnect supervisor of the missing
    client, run up to instant [target]: while the client reconnects and
    a dial is due, it dials; a dial that succeeds flips the client to
    connected on a new socket, one that fails is tried again a polling
    interval later. *)
Fixpoint superviseUntil (fuel : nat) (target : Z) (c : Client) (w : Service)
    : Client * Service :=
  match fuel with
  | O => (c, w)
  | S fuel' =>
      match state c with
      | Reconnecting =>
          if bool_decide (nextDial c <= target) then
            if reachable (address c) (nextDial c) then
              (set_state Connected (nextDial c) c, dialled true w)
            else
              superviseUntil fuel' target
                (set_state Reconnecting (nextDial c + pollInterval) c)
                (dialled (linkUp w) w)
          else (c, w)
      | _ => (c, w)
      end
  end.

(** Modelled from the spec: the background task of the missing client
    as time passes: [dt] later, with the supervisor's dials in
    between. *)
Definition elapse (dt : Z) (c : Client) (w : Service) : Client * Service :=
  let target := now w + dt in
  let '(c', w') := superviseUntil (S (Z.to_nat dt)) target c w in
  (c', set_now target w').



End WithConfig.





Definition alwaysUp : string -> Z -> bool := fun _ _ => true.
Definition alwaysDown : string -> Z -> bool := fun _ _ => false.

(** An empty store at instant 100, nothing dialled yet. *)
Definition emptyService : Service :=
  {| now := 100; store := ∅; linkUp := false; dials := 0 |}.

(** A connected client of the test suite. *)
Definition testClient : Client :=
  {| prefix := "govuk_mirror_crawler_test"; address := "127.0.0.1:6379";
     state := Connected; nextDial := 100 |}.

(** The store of the test suite once the client has connected: it holds
    nothing. *)
Definition liveService : Service := dialled true emptyService.

(** The store as the reconnect tests leave it after [Add("reconnect")],
    with the connection killed. *)
Definition killedService : Service :=
  breakLink (Add 3600 200 "reconnect" testClient liveService).2.

End TTLHashSet.

(** * Accounting of confirms on a shared connection *)
Module QueueAccounting.
Import Queue.

(** The confirm a goroutine's deferred [publisherConfirm] handled, if
    it has run. *)
Definition goroutine_handled (g : Goroutine) : list Confirm :=
  match g with
  | Finished _ calls _ | Exited _ calls =>
      match handled calls with Some cf => [cf] | None => [] end
  | NotStarted | InFlight _ _ => []
  end.

(** The confirms handled so far by the goroutines of a system. *)
Definition consumed (s : System) : list Confirm :=
  flat_map goroutine_handled (goroutines s).

(** The confirms waiting in the two channels of the connection. *)
Definition buffered (w : World) : list Confirm :=
  map Ack (ack w) ++ map Nack (nack w).

(** Every confirm the broker sent is either waiting in a channel or was
    handled by exactly one goroutine. *)
Definition conserved (s : System) : Prop :=
  sent s ≡ₚ consumed s ++ buffered (world s).

(** Neither channel holds more than its capacity. *)
Definition within_capacity (w : World) : Prop :=
  (length (ack w) <= chanCap w)%nat /\ (length (nack w) <= chanCap w)%nat.

(** The four calls of a successful [NewQueueConnection]. *)
Definition connect_calls (amqpURI : string) : list Call :=
  [AmqpDial amqpURI; ConnectionChannel; ChannelConfirm false;
   ChannelNotifyConfirm 1 1].


(** An amqp library that dials but cannot open a channel. *)
Definition env_no_channel : list Call -> Call -> option error :=
  fun _ c =>
    match c with
    | ConnectionChannel => Some (Err "channel id space exhausted")
    | _ => None
    end.


End QueueAccounting.

(** * The values [ExtractURLs] examines *)
Module CrawlerExamined.
Import Crawler.

(** The strings [ExtractURLs] hands to [url.Parse], in the order it does:
    for [a], [img], [link] and [script] in turn, the value [Attr]
    returns for each element of the selection (the empty string where
    the attribute is missing). *)
Definition examined (document : Document) : list string :=
  flat_map
    (fun m : string * string =>
       map (fun n => fst (Attr (snd m) n)) (Find (fst m) document))
    urlElementMatches.

(** The error of the first value, in order, that a parser rejects. *)
Fixpoint firstError (url_Parse : string -> URL + error) (values : list string)
    : option error :=
  match values with
  | [] => None
  | v :: rest =>
      match url_Parse v with
      | inr err => Some err
      | inl _ => firstError url_Parse rest
      end
  end.

End CrawlerExamined.

(** * ttl_hash_set tests: [purgeAllKeys] *)
Module PurgeKeys.




End PurgeKeys.

(** * Properties of the broker connection *)
Module QueueFacts.
Import Queue.

Section Confirm.

Variable env : list Call -> Call -> option error.

Lemma trace_set_ack l w : trace (set_ack l w) = trace w.
Proof. reflexivity. Qed.

Lemma trace_set_nack l w : trace (set_nack l w) = trace w.
Proof. reflexivity. Qed.

Lemma trace_deliver cf w w' : deliver cf w = Some w' -> trace w' = trace w.
Proof.
  destruct cf; simpl; case_decide; intros Hd; inversion Hd; reflexivity.
Qed.

Lemma trace_deliverAll cfs w : trace (deliverAll cfs w) = trace w.
Proof.
  revert w. induction cfs as [|cf cfs IH]; intros w; simpl; [reflexivity|].
  destruct (deliver cf w) as [w'|] eqn:E; [|reflexivity].
  rewrite IH. eauto using trace_deliver.
Qed.

(** The [select] only receives: it leaves the trace alone and never
    ends the process. *)
Lemma selectConfirm_cases pick w :
  selectConfirm pick w = Blocked w \/
  exists cf w1, selectConfirm pick w = Returned cf w1 /\ trace w1 = trace w.
Proof.
  unfold selectConfirm.
  destruct (ack w) as [|ta ra], (nack w) as [|tn rn]; [left; reflexivity| | |];
    right; try destruct pick; eauto.
Qed.

(** What [publisherConfirm] does once the [select] has received. *)
Lemma publisherConfirm_received pick w cf w1 :
  selectConfirm pick w = Returned cf w1 ->
  publisherConfirm env pick w =
    match env (trace w1 ++ [confirm_log cf]) (confirm_call cf) with
    | None => Returned tt (emit (confirm_call cf) (emit (confirm_log cf) w1))
    | Some e =>
        Fatal (emit (confirm_fatal cf e)
                 (emit (confirm_call cf) (emit (confirm_log cf) w1)))
    end.
Proof.
  intros Hsel. unfold publisherConfirm, bind. rewrite Hsel.
  destruct cf as [t|t]; simpl;
    unfold logPrintln, call; simpl;
    match goal with |- context [env ?tr ?c] => destruct (env tr c) end;
    reflexivity.
Qed.

Lemma publisherConfirm_blocked pick w :
  selectConfirm pick w = Blocked w ->
  publisherConfirm env pick w = Blocked w.
Proof. intros H. unfold publisherConfirm, bind. rewrite H. reflexivity. Qed.

(** [Publish] unfolded into its two halves. *)
Lemma Publish_unfold pick arrivals ex key ct body w r w0 :
  publishCall env ex key ct body w = Returned r w0 ->
  Publish env pick arrivals ex key ct body w =
    match publisherConfirm env pick (deliverAll arrivals w0) with
    | Returned _ w' => Returned r w'
    | Fatal w' => Fatal w'
    | Blocked w' => Blocked w'
    end.
Proof.
  intros H. unfold Publish, bind. rewrite H.
  unfold publishDeferred, bind, ret.
  destruct (publisherConfirm env pick (deliverAll arrivals w0)); reflexivity.
Qed.

Lemma publishCall_returns ex key ct body w :
  exists w0,
    publishCall env ex key ct body w =
      Returned (env (trace w) (ChannelPublish ex key false false (publishing ct body))) w0 /\
    trace w0 = trace w ++ [ChannelPublish ex key false false (publishing ct body)] /\
    ack w0 = ack w /\ nack w0 = nack w /\ chanCap w0 = chanCap w /\
    (env (trace w) (ChannelPublish ex key false false (publishing ct body)) = None ->
     publishSeq w0 = next_tag w).
Proof.
  unfold publishCall, channelPublish.
  destruct (env (trace w) _) as [e|] eqn:E; eexists; repeat split; try reflexivity.
  discriminate.
Qed.

End Confirm.


(** C3, as the code has it. A [Publish] that returns, returns the
    result of [Channel.Publish], whatever confirm it received; for the
    confirm it received it logged one line and made one call:
    [Channel.Ack(tag, false)] for an ack, [Channel.Nack(tag, false,
    true)], a requeue, for a nack. *)
Theorem Publish_returns_publish_result
    (env : list Call -> Call -> option error) (pickAck : bool)
    (arrivals : list Confirm) (ex key ct body : string)
    (w w' : World) (r : option error) :
  Publish env pickAck arrivals ex key ct body w = Returned r w' ->
  r = env (trace w) (ChannelPublish ex key false false (publishing ct body)) /\
  exists cf w0 w1,
    publishCall env ex key ct body w = Returned r w0 /\
    selectConfirm pickAck (deliverAll arrivals w0) = Returned cf w1 /\
    trace w' =
      trace w ++ [ChannelPublish ex key false false (publishing ct body);
                  confirm_log cf; confirm_call cf].
Proof.
  intros HP.
  destruct (publishCall_returns env ex key ct body w)
    as (w0 & Hcall & Htr & _).
  rewrite (Publish_unfold _ _ _ _ _ _ _ _ _ _ Hcall) in HP.
  destruct (selectConfirm_cases pickAck (deliverAll arrivals w0))
    as [Hb | (cf & w1 & Hsel & Htr1)].
  - rewrite (publisherConfirm_blocked _ _ _ Hb) in HP. discriminate.
  - rewrite (publisherConfirm_received _ _ _ _ _ Hsel) in HP.
    destruct (env (trace w1 ++ [confirm_log cf]) (confirm_call cf)) eqn:E;
      [discriminate|].
    inversion HP; subst. split; [reflexivity|].
    exists cf, w0, w1. repeat split; try assumption.
    simpl. rewrite Htr1, trace_deliverAll, Htr.
    rewrite <- !app_assoc. reflexivity.
Qed.

(** On a fresh connection a nack arrives for the publish. *)
Lemma Publish_returns_publish_result_witness :
  exists w',
    Publish env_ok true [Nack 1] "ex" "key" "text/plain" "body" fresh
      = Returned None w' /\
    exists cf w0 w1,
      publishCall env_ok "ex" "key" "text/plain" "body" fresh = Returned None w0 /\
      selectConfirm true (deliverAll [Nack 1] w0) = Returned cf w1 /\
      trace w' =
        trace fresh ++ [ChannelPublish "ex" "key" false false
                          (publishing "text/plain" "body");
                        confirm_log cf; confirm_call cf].
Proof.
  eexists. split; [reflexivity|].
  apply (Publish_returns_publish_result env_ok true [Nack 1]
           "ex" "key" "text/plain" "body" fresh).
  reflexivity.
Defined.

(** C3, as stated, fails: the publish is nacked, [Channel.Publish]
    succeeded, and [Publish] returns nil; the nack is answered with a
    requeue. *)
Lemma Publish_nack_returns_nil :
  Publish env_ok true [Nack 1] "ex" "key" "text/plain" "body" fresh
  = Returned None
      {| trace := [ChannelPublish "ex" "key" false false
                     (publishing "text/plain" "body");
                   LogPrintln "Couldn't acknowledge message publish:" 1;
                   ChannelNack 1 false true];
         ack := []; nack := []; chanCap := 1; publishSeq := 1 |}.
Proof. reflexivity. Qed.

(** C2, as the code has it. When the call [publisherConfirm] makes for
    the confirm it received ([Channel.Ack] or [Channel.Nack]) fails,
    [Publish] does not return: [log.Fatal] prints the error and ends the
    process. *)
Theorem Publish_confirm_failure_exits
    (env : list Call -> Call -> option error) (pickAck : bool)
    (arrivals : list Confirm) (ex key ct body : string)
    (w w0 w1 : World) (r : option error) (cf : Confirm) (e : error) :
  publishCall env ex key ct body w = Returned r w0 ->
  selectConfirm pickAck (deliverAll arrivals w0) = Returned cf w1 ->
  env (trace w1 ++ [confirm_log cf]) (confirm_call cf) = Some e ->
  Publish env pickAck arrivals ex key ct body w =
    Fatal (emit (confirm_fatal cf e)
             (emit (confirm_call cf) (emit (confirm_log cf) w1))).
Proof.
  intros Hcall Hsel Herr.
  rewrite (Publish_unfold _ _ _ _ _ _ _ _ _ _ Hcall).
  rewrite (publisherConfirm_received _ _ _ _ _ Hsel), Herr. reflexivity.
Qed.

Lemma Publish_confirm_failure_exits_witness :
  exists w0 w1,
    publishCall env_confirm_fails "ex" "key" "text/plain" "body" fresh
      = Returned None w0 /\
    selectConfirm true (deliverAll [Nack 1] w0) = Returned (Nack 1) w1 /\
    Publish env_confirm_fails true [Nack 1] "ex" "key" "text/plain" "body" fresh =
      Fatal (emit (confirm_fatal (Nack 1) (Err "channel/connection is not open"))
               (emit (confirm_call (Nack 1)) (emit (confirm_log (Nack 1)) w1))).
Proof.
  eexists. eexists.
  split; [reflexivity|]. split; [reflexivity|].
  eapply (Publish_confirm_failure_exits env_confirm_fails true [Nack 1]
            "ex" "key" "text/plain" "body" fresh _ _ None (Nack 1)
            (Err "channel/connection is not open"));
    reflexivity.
Defined.

(** C2, as stated, fails: [Channel.Ack] fails while the ack of the
    publish is handled, and [Publish] returns nothing to its caller: the
    process has exited. *)
Lemma Publish_ack_failure_ends_process :
  Publish env_confirm_fails true [Ack 1] "ex" "key" "text/plain" "body" fresh
  = Fatal
      {| trace := [ChannelPublish "ex" "key" false false
                     (publishing "text/plain" "body");
                   LogPrintln "Acknowledge message publish:" 1;
                   ChannelAck 1 false;
                   LogFatal "Couldn't ack:" 1
                     (Err "channel/connection is not open")];
         ack := []; nack := []; chanCap := 1; publishSeq := 1 |}
  /\ forall r w',
       Publish env_confirm_fails true [Ack 1] "ex" "key" "text/plain" "body" fresh
       <> Returned r w'.
Proof. split; [reflexivity | intros r w' H; discriminate H]. Qed.

Lemma new_calls_app (w w' : World) (l : list Call) :
  trace w' = trace w ++ l -> new_calls w w' = l.
Proof. intros H. unfold new_calls. rewrite H. apply drop_app_length. Qed.

Lemma handled_confirm (c : Call) (cf : Confirm) (rest : list Call) :
  handled (c :: confirm_log cf :: confirm_call cf :: rest) =
    match handled [c] with Some x => Some x | None => Some cf end.
Proof. destruct c, cf; reflexivity. Qed.

(** C1, as the code has it. A [Publish] that runs alone on the
    connection (both confirm channels empty when it is called,
    [Channel.Publish] accepted, and the one confirm delivered during the
    call carrying the delivery tag of its publish) handles that
    confirm, and leaves both channels empty. *)
Theorem Publish_alone_handles_own_confirm
    (env : list Call -> Call -> option error) (pickAck : bool)
    (cf : Confirm) (ex key ct body : string) (w : World) :
  ack w = [] -> nack w = [] -> (0 < chanCap w)%nat ->
  env (trace w) (ChannelPublish ex key false false (publishing ct body)) = None ->
  confirm_tag cf = next_tag w ->
  exists w0,
    publishCall env ex key ct body w = Returned None w0 /\
    confirm_tag cf = publishSeq w0 /\
    handled (new_calls w (world_of (Publish env pickAck [cf] ex key ct body w)))
      = Some cf /\
    ack (world_of (Publish env pickAck [cf] ex key ct body w)) = [] /\
    nack (world_of (Publish env pickAck [cf] ex key ct body w)) = [].
Proof.
  intros Hack Hnack Hcap Henv Htag.
  destruct (publishCall_returns env ex key ct body w)
    as (w0 & Hcall & Htr & Ha & Hn & Hc & Hseq).
  rewrite Henv in Hcall. specialize (Hseq Henv).
  exists w0. split; [exact Hcall|]. split; [congruence|].
  rewrite (Publish_unfold _ _ _ _ _ _ _ _ _ _ Hcall).
  assert (Hsel : exists w1,
    selectConfirm pickAck (deliverAll [cf] w0) = Returned cf w1 /\
    trace w1 = trace w0 /\ ack w1 = [] /\ nack w1 = []).
  { unfold deliverAll, deliver.
    destruct cf as [t|t]; rewrite ?Ha, ?Hn, ?Hack, ?Hnack, Hc; simpl;
      (case_decide; [|lia]);
      unfold selectConfirm; simpl; rewrite ?Ha, ?Hn, ?Hack, ?Hnack; simpl;
      eexists; (split; [reflexivity|]); simpl; repeat split; congruence. }
  destruct Hsel as (w1 & Hsel & Htr1 & Ha1 & Hn1).
  rewrite (publisherConfirm_received _ _ _ _ _ Hsel).
  destruct (env (trace w1 ++ [confirm_log cf]) (confirm_call cf)) as [e|];
    simpl; (split; [|split; assumption]).
  - rewrite (new_calls_app _ _
      [ChannelPublish ex key false false (publishing ct body);
       confirm_log cf; confirm_call cf; confirm_fatal cf e]).
    + apply handled_confirm.
    + simpl. rewrite Htr1, Htr, <- !app_assoc. reflexivity.
  - rewrite (new_calls_app _ _
      [ChannelPublish ex key false false (publishing ct body);
       confirm_log cf; confirm_call cf]).
    + apply handled_confirm.
    + simpl. rewrite Htr1, Htr, <- !app_assoc. reflexivity.
Qed.

Lemma Publish_alone_handles_own_confirm_witness :
  ack fresh = [] /\ nack fresh = [] /\ (0 < chanCap fresh)%nat /\
  confirm_tag (Nack 1) = next_tag fresh /\
  exists w0,
    publishCall env_ok "ex" "key" "text/plain" "body" fresh = Returned None w0 /\
    confirm_tag (Nack 1) = publishSeq w0 /\
    handled (new_calls fresh
               (world_of (Publish env_ok false [Nack 1] "ex" "key" "text/plain" "body" fresh)))
      = Some (Nack 1) /\
    ack (world_of (Publish env_ok false [Nack 1] "ex" "key" "text/plain" "body" fresh)) = [] /\
    nack (world_of (Publish env_ok false [Nack 1] "ex" "key" "text/plain" "body" fresh)) = [].
Proof.
  split; [reflexivity|]. split; [reflexivity|].
  split; [simpl; lia|]. split; [reflexivity|].
  apply (Publish_alone_handles_own_confirm env_ok false (Nack 1)
           "ex" "key" "text/plain" "body" fresh);
    [reflexivity | reflexivity | simpl; lia | reflexivity | reflexivity].
Defined.

(** C1, as stated, fails. Two goroutines publish on one connection; the
    broker nacks the first publish (tag 1) and acks the second (tag 2),
    and the ack arrives first. The first goroutine's [select] receives
    the ack of tag 2, the second goroutine's the nack of tag 1. *)
Lemma concurrent_Publish_takes_other_confirm :
  ~ (forall evs s, exec env_ok evs (start 2) = Some s -> each_resolves_own s).
Proof.
  intros Hall.
  destruct (Hall scenario_D _ eq_refl 0%nat 1%N
              [LogPrintln "Acknowledge message publish:" 2; ChannelAck 2 false]
              None eq_refl)
    as (cf & Hcf & Htag & _).
  simpl in Hcf. inversion Hcf; subst cf. discriminate Htag.
Qed.

End QueueFacts.

(** * Properties of the link extraction *)
Module CrawlerFacts.
Import Crawler.

Section Extract.

Variable Reader : Type.
Variable NewDocumentFromReader : Reader -> Document + error.
Variable url_Parse : string -> URL + error.

(** The closure appends exactly the matching value of each element,
    as long as every value it parses is a URL. *)
Lemma each_appends host attr selection l :
  (forall n, n ∈ selection -> exists u, url_Parse (fst (Attr attr n)) = inl u) ->
  each url_Parse host attr selection (Slice l) =
    Return (Slice (l ++ flat_map (matching_value url_Parse host attr) selection)).
Proof.
  revert l. induction selection as [|n rest IH]; intros l Hparse; simpl.
  - rewrite app_nil_r. reflexivity.
  - destruct (Hparse n) as [u Hu]; [left|].
    unfold matching_value at 1.
    destruct (Attr attr n) as [href ex] eqn:Hattr. simpl in Hu. rewrite Hu.
    assert (Hrest : forall m, m ∈ rest ->
              exists u', url_Parse (fst (Attr attr m)) = inl u').
    { intros m Hm. apply Hparse. right. exact Hm. }
    destruct ex; simpl.
    + destruct (decide (Host u = host)) as [Heq|Hne].
      * rewrite bool_decide_eq_true_2 by exact Heq. simpl.
        rewrite IH by exact Hrest. rewrite <- app_assoc. reflexivity.
      * rewrite bool_decide_eq_false_2 by exact Hne.
        rewrite IH by exact Hrest. reflexivity.
    + rewrite IH by exact Hrest. reflexivity.
Qed.

Lemma findByElementAttribute_values document host element attr :
  (forall n, n ∈ Find element document ->
     exists u, url_Parse (fst (Attr attr n)) = inl u) ->
  findByElementAttribute url_Parse document host element attr =
    Return (Slice (values_of url_Parse document host (element, attr))).
Proof.
  intros H. unfold findByElementAttribute, values_of.
  rewrite each_appends by exact H. reflexivity.
Qed.

Lemma rangeMatches_values document host matches l :
  (forall element attr n, (element, attr) ∈ matches ->
     n ∈ Find element document ->
     exists u, url_Parse (fst (Attr attr n)) = inl u) ->
  rangeMatches url_Parse document host matches (Slice l) =
    Return (Slice (l ++ flat_map (values_of url_Parse document host) matches)).
Proof.
  revert l. induction matches as [|[element attr] rest IH]; intros l H; simpl.
  - rewrite app_nil_r. reflexivity.
  - rewrite findByElementAttribute_values.
    + simpl. rewrite IH.
      * rewrite <- app_assoc. reflexivity.
      * intros e a n Hin. apply H. right. exact Hin.
    + intros n Hn. apply (H element attr n); [left | exact Hn].
Qed.

(** A value that does not parse ends the process at the first such
    element of the selection. *)
Lemma each_exits host attr selection urls n err :
  selection !! 0%nat = Some n ->
  url_Parse (fst (Attr attr n)) = inr err ->
  each url_Parse host attr selection urls = Exit err.
Proof.
  destruct selection as [|m rest]; intros Hn Herr; simplify_eq/=.
  destruct (Attr attr n) as [href ex]. simpl in Herr. rewrite Herr.
  reflexivity.
Qed.

End Extract.

(** C10, as the code has it. When the document is read and parsed and
    every attribute value handed to [url.Parse] parses, [ExtractURLs]
    returns exactly the [a[href]], [img[src]], [link[href]] and
    [script[src]] values whose URL has the given host, grouped in that
    order, with a nil error; when the document cannot be read it
    returns an empty, non-nil slice and the error. *)
Theorem ExtractURLs_described
    (Reader : Type) (NewDocumentFromReader : Reader -> Document + error)
    (url_Parse : string -> URL + error) (body : Reader) (host : string) :
  (forall document, NewDocumentFromReader body = inl document ->
     all_parse url_Parse document) ->
  ExtractURLs Reader NewDocumentFromReader url_Parse body host =
    match NewDocumentFromReader body with
    | inl document =>
        Return (Slice (described_urls url_Parse document host), None)
    | inr err => Return (Slice [], Some err)
    end.
Proof.
  intros Hparse. unfold ExtractURLs.
  destruct (NewDocumentFromReader body) as [document|err]; [|reflexivity].
  rewrite rangeMatches_values.
  - reflexivity.
  - intros element attr n Hm Hn. exact (Hparse document eq_refl element attr n Hm Hn).
Qed.

Lemma sample_page_all_parse : all_parse NetURL.Parse sample_page.
Proof.
  intros element attr n Hm Hn.
  unfold urlElementMatches in Hm.
  repeat (apply elem_of_cons in Hm as [Hm|Hm]; [inversion Hm; subst; clear Hm|]);
    [| | | |apply elem_of_nil in Hm; destruct Hm];
    vm_compute in Hn;
    repeat (apply elem_of_cons in Hn as [Hn|Hn]; [subst n; eexists; vm_compute; reflexivity|]);
    apply elem_of_nil in Hn; destruct Hn.
Qed.

Lemma ExtractURLs_described_witness :
  ExtractURLs _ readParsed NetURL.Parse (inl sample_page) "www.gov.uk" =
    Return (Slice (described_urls NetURL.Parse sample_page "www.gov.uk"), None).
Proof.
  apply (ExtractURLs_described _ readParsed NetURL.Parse (inl sample_page)
           "www.gov.uk").
  intros document Hd. inversion Hd; subst document.
  exact sample_page_all_parse.
Defined.

(** C10, as stated, fails: for the body [<a href=":">broken</a>]
    [url.Parse] rejects the [href] and [ExtractURLs] returns nothing:
    [log.Fatal] ends the process. *)
Lemma ExtractURLs_unparsable_href_exits :
  ExtractURLs _ readParsed NetURL.Parse (inl broken_link) "www.gov.uk"
    = Exit (Err "missing protocol scheme")
  /\ forall r,
       ExtractURLs _ readParsed NetURL.Parse (inl broken_link) "www.gov.uk"
       <> Return r.
Proof. split; [reflexivity | intros r H; discriminate H]. Qed.

End CrawlerFacts.

(** * Properties of the dedup store client *)
Module TTLHashSetFacts.
Import TTLHashSet.

Local Open Scope Z_scope.

Section Client.

Variable ttl : Z.
Variable pollInterval : Z.
Variable reachable : string -> Z -> bool.

(** The supervisor leaves alone a client that is not reconnecting. *)
Lemma superviseUntil_idle fuel target c w :
  state c <> Reconnecting ->
  superviseUntil pollInterval reachable fuel target c w = (c, w).
Proof.
  intros H. destruct fuel as [|fuel]; [reflexivity|]. simpl.
  destruct (state c); try reflexivity. congruence.
Qed.


Lemma elapse_connected dt c w :
  state c = Connected ->
  elapse pollInterval reachable dt c w = (c, set_now (now w + dt) w).
Proof.
  intros H. unfold elapse.
  rewrite superviseUntil_idle by congruence. reflexivity.
Qed.


(** The first due dial that succeeds ends the reconnect, however much
    later the clock is read. *)
Lemma elapse_first_dial_succeeds dt c w :
  state c = Reconnecting ->
  nextDial c <= now w + dt ->
  reachable (address c) (nextDial c) = true ->
  elapse pollInterval reachable dt c w =
    (set_state Connected (nextDial c) c,
     set_now (now w + dt) (dialled true w)).
Proof.
  intros Hs Hn Hr. unfold elapse. simpl. rewrite Hs.
  rewrite bool_decide_eq_true_2 by lia. rewrite Hr. reflexivity.
Qed.

(** The store's answer depends on the stored keys and the clock only. *)
Lemma serve_reply_frame pre op w1 w2 :
  store w1 = store w2 -> now w1 = now w2 ->
  (serve ttl pre op w1).1 = (serve ttl pre op w2).1.
Proof.
  intros Hst Hnow. destruct op as [key|key|key|]; simpl;
    rewrite ?Hst, ?Hnow.
  - destruct (live _ _ _); reflexivity.
  - reflexivity.
  - destruct (store w2 !! _) as [[e|]|]; try reflexivity.
    destruct (bool_decide _); reflexivity.
  - reflexivity.
Qed.


(** A call on a connected client whose socket works is the store's
    answer, without an error. *)
Lemma call_connected op c w :
  state c = Connected -> linkUp w = true ->
  call ttl pollInterval op c w =
    (((serve ttl (prefix c) op w).1, None), c, (serve ttl (prefix c) op w).2).
Proof.
  intros Hs Hl. unfold call. rewrite Hs, Hl.
  destruct (serve ttl (prefix c) op w). reflexivity.
Qed.


Lemma call_broken op c w :
  state c = Connected -> linkUp w = false ->
  call ttl pollInterval op c w =
    ((failed op, Some TransportError),
     set_state Reconnecting (now w + pollInterval) c, w).
Proof. intros Hs Hl. unfold call. rewrite Hs, Hl. reflexivity. Qed.

Lemma failed_negative op : negative (failed op) = true.
Proof. destruct op; reflexivity. Qed.





End Client.

(** C8. When the one eager dial of the constructor fails, it returns no
    client and a [ConnectionError] at once: one dial was made, no time
    has passed, and the store is as it was. *)
Theorem NewTTLHashSet_fails_without_retry
    (reachable : string -> Z -> bool) (pre addr : string) (w : Service) :
  reachable addr (now w) = false ->
  exists w',
    NewTTLHashSet reachable pre addr w = (None, Some ConnectionError, w') /\
    dials w' = S (dials w) /\ now w' = now w /\ store w' = store w.
Proof.
  intros H. unfold NewTTLHashSet. rewrite H.
  eexists. split; [reflexivity|]. repeat split.
Qed.

Lemma NewTTLHashSet_fails_without_retry_witness :
  alwaysDown "127.0.0.1:20000" (now emptyService) = false /\
  exists w',
    NewTTLHashSet alwaysDown "govuk_mirror_crawler_test" "127.0.0.1:20000"
      emptyService = (None, Some ConnectionError, w') /\
    dials w' = S (dials emptyService) /\ now w' = now emptyService /\
    store w' = store emptyService.
Proof.
  split; [reflexivity|].
  apply (NewTTLHashSet_fails_without_retry alwaysDown
           "govuk_mirror_crawler_test" "127.0.0.1:20000" emptyService).
  reflexivity.
Defined.

(** C6. On a connected client, for a key that is not stored: the first
    [Add] returns [true] without an error, [Exists] right after it
    returns [true], and a second [Add] before the time to live has
    elapsed returns [false] without an error. *)
Theorem Add_once_then_present
    (ttl pollInterval : Z) (reachable : string -> Z -> bool)
    (key : string) (c : Client) (w : Service) :
  0 < ttl ->
  state c = Connected -> linkUp w = true ->
  live (store w) (now w) (compositeKey (prefix c) key) = false ->
  exists w1,
    Add ttl pollInterval key c w = ((true, None), c, w1) /\
    Exists ttl pollInterval key c w1 = ((true, None), c, w1) /\
    forall dt, 0 <= dt < ttl ->
      exists w2,
        elapse pollInterval reachable dt c w1 = (c, w2) /\
        Add ttl pollInterval key c w2 = ((false, None), c, w2).
Proof.
  intros Httl Hs Hl Hfresh.
  set (k := compositeKey (prefix c) key) in *.
  exists (set_store (<[k := Some (now w + ttl)]> (store w)) w).
  assert (Hlive : forall t, t < now w + ttl ->
            live (<[k := Some (now w + ttl)]> (store w)) t k = true).
  { intros t Ht. unfold live. rewrite lookup_insert_eq.
    apply bool_decide_eq_true_2. exact Ht. }
  split; [|split].
  - unfold Add. rewrite call_connected by assumption. simpl.
    fold k. rewrite Hfresh. reflexivity.
  - unfold Exists. rewrite call_connected by assumption. simpl.
    fold k. rewrite Hlive by lia. reflexivity.
  - intros dt Hdt. eexists. split.
    + apply elapse_connected. exact Hs.
    + unfold Add. rewrite call_connected by assumption. simpl.
      fold k. rewrite Hlive by lia. reflexivity.
Qed.

Lemma Add_once_then_present_witness :
  exists w1,
    Add 3600 200 "foo.bar.baz" testClient liveService
      = ((true, None), testClient, w1) /\
    Exists 3600 200 "foo.bar.baz" testClient w1
      = ((true, None), testClient, w1) /\
    forall dt, 0 <= dt < 3600 ->
      exists w2,
        elapse 200 alwaysUp dt testClient w1 = (testClient, w2) /\
        Add 3600 200 "foo.bar.baz" testClient w2
          = ((false, None), testClient, w2).
Proof.
  apply (Add_once_then_present 3600 200 alwaysUp "foo.bar.baz"
           testClient liveService);
    [lia | reflexivity | reflexivity | vm_compute; reflexivity].
Defined.



(** C5. A call on a connected client whose connection has broken
    returns the transport error with the negative or false result and
    leaves the store as it was. When the store can be dialled one
    polling interval later, then from that instant on the client is
    connected again, the store is still as it was, every call succeeds
    with the answer the store would have given without the break, and a
    key added before the break whose time to live has not elapsed is
    reported present. *)
Theorem transport_failure_then_recovery
    (ttl pollInterval : Z) (reachable : string -> Z -> bool)
    (op : Op) (c : Client) (w : Service) (dt : Z) :
  0 < pollInterval ->
  state c = Connected -> linkUp w = false ->
  reachable (address c) (now w + pollInterval) = true ->
  pollInterval <= dt ->
  exists c1 c2 w2,
    call ttl pollInterval op c w = ((failed op, Some TransportError), c1, w) /\
    negative (failed op) = true /\
    elapse pollInterval reachable dt c1 w = (c2, w2) /\
    state c2 = Connected /\
    store w2 = store w /\
    (forall op',
       (call ttl pollInterval op' c2 w2).1.1 =
         ((serve ttl (prefix c) op' (set_now (now w + dt) w)).1, None)) /\
    (forall key expiry,
       store w !! compositeKey (prefix c) key = Some (Some expiry) ->
       now w + dt < expiry ->
       Exists ttl pollInterval key c2 w2 = ((true, None), c2, w2)).
Proof.
  intros HP Hs Hl Hreach Hdt.
  exists (set_state Reconnecting (now w + pollInterval) c).
  eexists _, _.
  split; [apply call_broken; assumption|].
  split; [apply failed_negative|].
  split.
  { apply elapse_first_dial_succeeds; simpl; [reflexivity | lia | exact Hreach]. }
  split; [reflexivity|]. split; [reflexivity|]. split.
  - intros op'. rewrite call_connected by reflexivity. simpl.
    f_equal. apply serve_reply_frame; reflexivity.
  - intros key expiry Hstored Hleft.
    unfold Exists. rewrite call_connected by reflexivity. simpl.
    unfold live. simpl. rewrite Hstored.
    rewrite bool_decide_eq_true_2 by exact Hleft. reflexivity.
Qed.

Lemma transport_failure_then_recovery_witness :
  exists c1 c2 w2,
    call 3600 200 (OpExists "reconnect") testClient killedService
      = ((failed (OpExists "reconnect"), Some TransportError), c1, killedService) /\
    negative (failed (OpExists "reconnect")) = true /\
    elapse 200 alwaysUp 200 c1 killedService = (c2, w2) /\
    state c2 = Connected /\
    store w2 = store killedService /\
    (forall op',
       (call 3600 200 op' c2 w2).1.1 =
         ((serve 3600 (prefix testClient) op'
             (set_now (now killedService + 200) killedService)).1, None)) /\
    (forall key expiry,
       store killedService !! compositeKey (prefix testClient) key
         = Some (Some expiry) ->
       now killedService + 200 < expiry ->
       Exists 3600 200 key c2 w2 = ((true, None), c2, w2)).
Proof.
  apply (transport_failure_then_recovery 3600 200 alwaysUp
           (OpExists "reconnect") testClient killedService 200);
    [lia | reflexivity | reflexivity | reflexivity | lia].
Defined.



End TTLHashSetFacts.

(** * Further properties of the broker connection *)
Module QueueMoreFacts.
Import Queue QueueAccounting.

Section Confirms.

Variable env : list Call -> Call -> option error.

(** What the [select] takes: the oldest tag of one channel, leaving the
    other channel and the rest of this one as they were. Which channel
    is decided by the pick only when both are ready. *)
Lemma selectConfirm_takes pick w cf w1 :
  selectConfirm pick w = Returned cf w1 ->
  trace w1 = trace w /\ chanCap w1 = chanCap w /\ publishSeq w1 = publishSeq w /\
  ((exists t, cf = Ack t /\ ack w = t :: ack w1 /\ nack w1 = nack w /\
              (nack w = [] \/ pick = true)) \/
   (exists t, cf = Nack t /\ nack w = t :: nack w1 /\ ack w1 = ack w /\
              (ack w = [] \/ pick = false))).
Proof.
  unfold selectConfirm.
  destruct (ack w) as [|ta ra] eqn:Ea, (nack w) as [|tn rn] eqn:En;
    try destruct pick; intros H; inversion H; subst; clear H; simpl;
    rewrite ?Ea, ?En; repeat split;
    solve [ left; eexists; repeat split; auto
          | right; eexists; repeat split; auto ].
Qed.



Lemma handled_log_call cf extra :
  handled (confirm_log cf :: confirm_call cf :: extra) = Some cf.
Proof. destruct cf; reflexivity. Qed.

End Confirms.

(** X1. When [NewQueueConnection] returns an error it returns no
    connection; the error is the answer of the last call it made, which
    is the dial, the opening of the channel or the switch to confirm
    mode, the earlier ones having succeeded; it registers no
    listeners, and it closes neither the connection nor the channel it
    may have opened. *)
Theorem NewQueueConnection_error
    (env : list Call -> Call -> option error) (amqpURI : string)
    (w w' : World) (ok : bool) (e : error) :
  NewQueueConnection env amqpURI w = Returned (ok, Some e) w' ->
  ok = false /\
  exists before c,
    trace w' = trace w ++ before ++ [c] /\
    env (trace w ++ before) c = Some e /\
    (forall i c', before !! i = Some c' ->
       env (trace w ++ take i before) c' = None) /\
    (before ++ [c]) `prefix_of` (connect_calls amqpURI) /\
    (before ++ [c]) <> connect_calls amqpURI /\
    (ChannelClose ∉ before ++ [c]) /\ (ConnectionClose ∉ before ++ [c]) /\
    ack w' = ack w /\ nack w' = nack w.
Proof.
  assert (Hnotin : forall (x : Call) (l : list Call),
            Forall (fun y => x <> y) l -> x ∉ l).
  { intros x l HF Hin. rewrite Forall_forall in HF. exact (HF x Hin eq_refl). }
  unfold NewQueueConnection, bind, call, ret. simpl.
  destruct (env (trace w) (AmqpDial amqpURI)) as [e1|] eqn:E1.
  { intros H; inversion H; subst; clear H. split; [reflexivity|].
    exists [], (AmqpDial amqpURI). split_and!.
    - reflexivity.
    - rewrite app_nil_r. assumption.
    - intros i c' Hi. rewrite lookup_nil in Hi. discriminate.
    - eexists; reflexivity.
    - discriminate.
    - apply Hnotin. repeat constructor; discriminate.
    - apply Hnotin. repeat constructor; discriminate.
    - reflexivity.
    - reflexivity. }
  simpl.
  destruct (env (trace w ++ [AmqpDial amqpURI]) ConnectionChannel) as [e2|] eqn:E2.
  { intros H; inversion H; subst; clear H. split; [reflexivity|].
    exists [AmqpDial amqpURI], ConnectionChannel. split_and!.
    - simpl. rewrite <- app_assoc. reflexivity.
    - assumption.
    - intros [|i] c' Hi; simplify_eq/=. rewrite app_nil_r. exact E1.
    - eexists; reflexivity.
    - discriminate.
    - apply Hnotin. repeat constructor; discriminate.
    - apply Hnotin. repeat constructor; discriminate.
    - reflexivity.
    - reflexivity. }
  simpl.
  destruct (env ((trace w ++ [AmqpDial amqpURI]) ++ [ConnectionChannel])
              (ChannelConfirm false)) as [e3|] eqn:E3.
  { intros H; inversion H; subst; clear H. split; [reflexivity|].
    exists [AmqpDial amqpURI; ConnectionChannel], (ChannelConfirm false).
    rewrite <- app_assoc in E3. split_and!.
    - simpl. rewrite <- !app_assoc. reflexivity.
    - assumption.
    - intros [|[|i]] c' Hi; simplify_eq/=.
      + rewrite app_nil_r. exact E1.
      + exact E2.
    - eexists; reflexivity.
    - discriminate.
    - apply Hnotin. repeat constructor; discriminate.
    - apply Hnotin. repeat constructor; discriminate.
    - reflexivity.
    - reflexivity. }
  intros H; inversion H.
Qed.

Lemma NewQueueConnection_error_witness :
  exists w',
    NewQueueConnection env_no_channel "amqp://guest@localhost/" fresh
      = Returned (false, Some (Err "channel id space exhausted")) w' /\
    exists before c,
      trace w' = trace fresh ++ before ++ [c] /\
      env_no_channel (trace fresh ++ before) c
        = Some (Err "channel id space exhausted") /\
      (forall i c', before !! i = Some c' ->
         env_no_channel (trace fresh ++ take i before) c' = None) /\
      (before ++ [c]) `prefix_of` (connect_calls "amqp://guest@localhost/") /\
      (before ++ [c]) <> connect_calls "amqp://guest@localhost/" /\
      (ChannelClose ∉ before ++ [c]) /\ (ConnectionClose ∉ before ++ [c]) /\
      ack w' = ack fresh /\ nack w' = nack fresh.
Proof.
  eexists. split; [reflexivity|].
  apply (NewQueueConnection_error env_no_channel "amqp://guest@localhost/"
           fresh _ false (Err "channel id space exhausted")).
  reflexivity.
Defined.

(** X2. [NewQueueConnection] always returns. It returns a connection
    exactly when it returns no error, which is exactly when the dial,
    the opening of the channel and [Confirm(false)] all succeed; it has
    then made its four calls in order, and the connection's two confirm
    channels are empty and have capacity one. *)
Theorem NewQueueConnection_success
    (env : list Call -> Call -> option error) (amqpURI : string) (w : World) :
  exists ok err w',
    NewQueueConnection env amqpURI w = Returned (ok, err) w' /\
    (ok = true <-> err = None) /\
    (err = None <->
       env (trace w) (AmqpDial amqpURI) = None /\
       env (trace w ++ [AmqpDial amqpURI]) ConnectionChannel = None /\
       env (trace w ++ [AmqpDial amqpURI; ConnectionChannel])
           (ChannelConfirm false) = None) /\
    (err = None ->
       trace w' = trace w ++ connect_calls amqpURI /\
       ack w' = [] /\ nack w' = [] /\ chanCap w' = 1%nat).
Proof.
  unfold NewQueueConnection, bind, call, ret. simpl.
  destruct (env (trace w) (AmqpDial amqpURI)) as [e1|] eqn:E1.
  { eexists _, _, _. split; [reflexivity|].
    split; [split; discriminate|].
    split; [split; [discriminate | intros (H & _); discriminate]|discriminate]. }
  simpl.
  destruct (env (trace w ++ [AmqpDial amqpURI]) ConnectionChannel) as [e2|] eqn:E2.
  { eexists _, _, _. split; [reflexivity|].
    split; [split; discriminate|].
    split; [split; [discriminate | intros (_ & H & _); discriminate]|discriminate]. }
  simpl. rewrite <- app_assoc. simpl.
  destruct (env (trace w ++ [AmqpDial amqpURI; ConnectionChannel])
              (ChannelConfirm false)) as [e3|] eqn:E3.
  { eexists _, _, _. split; [reflexivity|].
    split; [split; discriminate|].
    split; [split; [discriminate | intros (_ & _ & H); discriminate]|discriminate]. }
  eexists _, _, _. split; [reflexivity|].
  split; [split; reflexivity|].
  split; [split; auto|].
  intros _. simpl. rewrite <- !app_assoc. repeat split.
Qed.






Section Accounting.

Variable env : list Call -> Call -> option error.

Lemma flat_map_insert_quiet {A B} (f : A -> list B) (l : list A) i x y :
  l !! i = Some x -> f x = [] ->
  flat_map f (<[i:=y]> l) ≡ₚ f y ++ flat_map f l.
Proof.
  revert i. induction l as [|a l IH]; intros i Hi Hx.
  - rewrite lookup_nil in Hi. discriminate.
  - destruct i as [|i]; simpl in *.
    + inversion Hi; subst a. rewrite Hx. reflexivity.
    + rewrite (IH i Hi Hx).
      rewrite !app_assoc. apply Permutation_app_tail, Permutation_app_comm.
Qed.

Lemma buffered_channels w w' :
  ack w' = ack w -> nack w' = nack w -> buffered w' = buffered w.
Proof. unfold buffered. intros -> ->. reflexivity. Qed.

Lemma buffered_deliver cf w w' :
  deliver cf w = Some w' -> buffered w' ≡ₚ cf :: buffered w.
Proof.
  unfold deliver, buffered.
  destruct cf as [t|t]; case_decide; intros Hd; inversion Hd; subst; simpl.
  - rewrite map_app. simpl. rewrite <- app_assoc. simpl.
    symmetry. apply Permutation_middle.
  - rewrite map_app. simpl. rewrite app_assoc.
    symmetry. apply Permutation_cons_append.
Qed.

Lemma buffered_select pick w cf w1 :
  selectConfirm pick w = Returned cf w1 -> buffered w ≡ₚ cf :: buffered w1.
Proof.
  intros Hsel.
  destruct (selectConfirm_takes _ _ _ _ Hsel)
    as (_ & _ & _ & [(t & -> & Ha & Hn & _) | (t & -> & Hn & Ha & _)]);
    unfold buffered; rewrite Ha, Hn; simpl.
  - reflexivity.
  - symmetry. apply Permutation_middle.
Qed.

(** What the deferred half of [Publish] leaves behind when it does not
    wait: one confirm less in the channels, and calls that name it. *)
Lemma publishDeferred_outcome pick result w :
  (publishDeferred env pick result w = Blocked w) \/
  exists cf w',
    (publishDeferred env pick result w = Returned result w' \/
     publishDeferred env pick result w = Fatal w') /\
    handled (new_calls w w') = Some cf /\
    buffered w ≡ₚ cf :: buffered w' /\
    chanCap w' = chanCap w /\
    (length (ack w') <= length (ack w))%nat /\
    (length (nack w') <= length (nack w))%nat.
Proof.
  unfold publishDeferred, bind, ret.
  destruct (QueueFacts.selectConfirm_cases pick w)
    as [Hb | (cf & w1 & Hsel & Htr)].
  - left. rewrite (QueueFacts.publisherConfirm_blocked env _ _ Hb). reflexivity.
  - right. exists cf.
    rewrite (QueueFacts.publisherConfirm_received env _ _ _ _ Hsel).
    pose proof (buffered_select _ _ _ _ Hsel) as Hbuf.
    destruct (selectConfirm_takes _ _ _ _ Hsel) as (_ & Hcap & _ & Htake).
    assert (Hlen : (length (ack w1) <= length (ack w))%nat /\
                   (length (nack w1) <= length (nack w))%nat).
    { destruct Htake as [(t & _ & Ha & Hn & _) | (t & _ & Hn & Ha & _)];
        rewrite Ha, Hn; simpl; lia. }
    destruct (env (trace w1 ++ [confirm_log cf]) (confirm_call cf)) as [e|];
      eexists; (split; [eauto|]); simpl;
      (split; [|split; [exact Hbuf | split; [exact Hcap | exact Hlen]]]).
    + rewrite (QueueFacts.new_calls_app _ _
                 [confirm_log cf; confirm_call cf; confirm_fatal cf e]).
      * apply handled_log_call.
      * simpl. rewrite Htr, <- !app_assoc. reflexivity.
    + rewrite (QueueFacts.new_calls_app _ _ [confirm_log cf; confirm_call cf]).
      * apply handled_log_call.
      * simpl. rewrite Htr, <- !app_assoc. reflexivity.
Qed.

(** One step keeps the account of confirms and the channel bounds. *)
Lemma step_keeps ev s s' :
  step env ev s = Some s' ->
  (conserved s -> conserved s') /\
  (within_capacity (world s) -> within_capacity (world s')) /\
  chanCap (world s') = chanCap (world s).
Proof.
  unfold step. destruct ev as [g ex key ct body | cf | g pick].
  - destruct (goroutines s !! g) as [[| | |]|] eqn:Hg; try discriminate.
    destruct (QueueFacts.publishCall_returns env ex key ct body (world s))
      as (w0 & Hcall & _ & Ha & Hn & Hc & _).
    rewrite Hcall.
    destruct (env (trace (world s)) _) as [e|]; intros H; inversion H; subst;
      clear H; unfold conserved, consumed, within_capacity; simpl;
      rewrite (flat_map_insert_quiet _ _ _ _ _ Hg eq_refl); simpl;
      rewrite (buffered_channels _ _ Ha Hn), Ha, Hn, Hc; auto.
  - case_decide; [|discriminate].
    destruct (deliver cf (world s)) as [w'|] eqn:Hd; [|discriminate].
    intros H'; inversion H'; subst; clear H'.
    unfold conserved, consumed, within_capacity; simpl.
    split; [|split].
    + intros Hc. rewrite (buffered_deliver _ _ _ Hd), Hc.
      etransitivity; [|apply Permutation_middle].
      symmetry. apply Permutation_cons_append.
    + unfold deliver in Hd.
      destruct cf as [t|t]; case_decide; inversion Hd; subst; simpl;
        rewrite ?length_app; simpl; lia.
    + unfold deliver in Hd.
      destruct cf as [t|t]; case_decide; inversion Hd; subst; reflexivity.
  - destruct (goroutines s !! g) as [[|own result| |]|] eqn:Hg; try discriminate.
    destruct (publishDeferred_outcome pick result (world s))
      as [Hb | (cf & w' & Hout & Hh & Hbuf & Hcap & Hla & Hln)].
    { rewrite Hb. discriminate. }
    destruct Hout as [Hout|Hout]; rewrite Hout; intros H; inversion H; subst;
      clear H; unfold conserved, consumed, within_capacity; simpl;
      rewrite (flat_map_insert_quiet _ _ _ _ _ Hg eq_refl); simpl;
      rewrite Hh, Hcap; simpl;
      (split; [intros Hc; rewrite Hc, Hbuf; symmetry; apply Permutation_middle|]);
      (split; [lia | reflexivity]).
Qed.

Lemma exec_keeps evs : forall s s',
  exec env evs s = Some s' ->
  (conserved s -> conserved s') /\
  (within_capacity (world s) -> within_capacity (world s')) /\
  chanCap (world s') = chanCap (world s).
Proof.
  induction evs as [|ev evs IH]; intros s s' H; simpl in H.
  - inversion H; subst. auto.
  - destruct (step env ev s) as [s1|] eqn:Hstep; [|discriminate].
    destruct (step_keeps _ _ _ Hstep) as (Hc1 & Hw1 & Hcap1).
    destruct (IH _ _ H) as (Hc2 & Hw2 & Hcap2).
    split; [auto|]. split; [auto|]. congruence.
Qed.

End Accounting.

Lemma start_conserved n : conserved (start n).
Proof.
  unfold conserved, consumed, start. simpl.
  induction n as [|n IH]; simpl; [reflexivity | exact IH].
Qed.



(** X7. On a connection made by [NewQueueConnection] at most one ack and
    one nack wait at any time, however the goroutines and the broker
    interleave; so the broker's confirms are never more than two ahead
    of the confirms handled. *)
Theorem at_most_two_confirms_wait
    (env : list Call -> Call -> option error) (n : nat)
    (evs : list Event) (s : System) :
  exec env evs (start n) = Some s ->
  (length (ack (world s)) <= 1)%nat /\
  (length (nack (world s)) <= 1)%nat /\
  (length (sent s) <= length (consumed s) + 2)%nat.
Proof.
  intros H.
  destruct (exec_keeps env evs _ _ H) as (Hc & Hw & Hcap).
  assert (Hcons : conserved s).
  { apply Hc. apply start_conserved. }
  destruct Hw as (Ha & Hn); [split; simpl; lia|].
  rewrite Hcap in Ha, Hn. simpl in Ha, Hn.
  split; [exact Ha|]. split; [exact Hn|].
  unfold conserved in Hcons. rewrite Hcons.
  unfold buffered. rewrite !length_app, !length_map. lia.
Qed.

Lemma at_most_two_confirms_wait_witness :
  exists s,
    exec env_ok scenario_D (start 2) = Some s /\
    (length (ack (world s)) <= 1)%nat /\
    (length (nack (world s)) <= 1)%nat /\
    (length (sent s) <= length (consumed s) + 2)%nat.
Proof.
  eexists. split; [reflexivity|].
  apply (at_most_two_confirms_wait env_ok 2 scenario_D). reflexivity.
Defined.

End QueueMoreFacts.

(** * Further properties of the link extraction *)
Module CrawlerMoreFacts.
Import Crawler CrawlerExamined.

Section Outcome.

Variable url_Parse : string -> URL + error.

Lemma firstError_app l1 l2 :
  firstError url_Parse (l1 ++ l2) =
    match firstError url_Parse l1 with
    | Some e => Some e
    | None => firstError url_Parse l2
    end.
Proof.
  induction l1 as [|v l1 IH]; simpl; [reflexivity|].
  destruct (url_Parse v); [exact IH | reflexivity].
Qed.

(** No value rejected: every value parses. *)
Lemma firstError_None values :
  firstError url_Parse values = None <->
  forall v, v ∈ values -> exists u, url_Parse v = inl u.
Proof.
  induction values as [|v values IH]; simpl.
  - split; [intros _ v Hv; apply elem_of_nil in Hv; destruct Hv | reflexivity].
  - destruct (url_Parse v) as [u|e] eqn:Ev.
    + rewrite IH. split.
      * intros H v' Hv'. apply elem_of_cons in Hv' as [->|Hv']; eauto.
      * intros H v' Hv'. apply H. right. exact Hv'.
    + split; [discriminate|].
      intros H. destruct (H v) as [u Hu]; [left|]. congruence.
Qed.

(** The closure over a selection: it ends the process at the first
    value that does not parse, and otherwise appends the matching
    values. *)
Lemma each_outcome host attr selection l :
  each url_Parse host attr selection (Slice l) =
    match firstError url_Parse (map (fun n => fst (Attr attr n)) selection) with
    | Some e => Exit e
    | None =>
        Return (Slice (l ++ flat_map (matching_value url_Parse host attr)
                                     selection))
    end.
Proof.
  revert l. induction selection as [|n rest IH]; intros l; simpl.
  - rewrite app_nil_r. reflexivity.
  - unfold matching_value at 1.
    destruct (Attr attr n) as [href ex]. simpl.
    destruct (url_Parse href) as [u|e]; [|reflexivity].
    destruct ex; simpl.
    + destruct (decide (Host u = host)) as [Heq|Hne].
      * rewrite bool_decide_eq_true_2 by exact Heq. rewrite IH.
        destruct (firstError _ _); [reflexivity|].
        rewrite <- app_assoc. reflexivity.
      * rewrite bool_decide_eq_false_2 by exact Hne. rewrite IH. reflexivity.
    + rewrite IH. reflexivity.
Qed.

Lemma rangeMatches_outcome document host matches l :
  rangeMatches url_Parse document host matches (Slice l) =
    match firstError url_Parse
            (flat_map (fun m : string * string =>
                         map (fun n => fst (Attr (snd m) n))
                             (Find (fst m) document)) matches) with
    | Some e => Exit e
    | None =>
        Return (Slice (l ++ flat_map (values_of url_Parse document host) matches))
    end.
Proof.
  revert l. induction matches as [|[element attr] rest IH]; intros l; simpl.
  - rewrite app_nil_r. reflexivity.
  - unfold findByElementAttribute. rewrite each_outcome, firstError_app. simpl.
    destruct (firstError url_Parse (map _ (Find element document)));
      [reflexivity|].
    simpl. rewrite IH.
    destruct (firstError _ _); [reflexivity|].
    unfold values_of at 2. simpl. rewrite <- app_assoc. reflexivity.
Qed.

Lemma matching_value_length host attr n :
  (length (matching_value url_Parse host attr n) <= 1)%nat.
Proof.
  unfold matching_value. destruct (Attr attr n) as [v [|]]; simpl; [|lia].
  destruct (url_Parse v) as [u|e]; simpl; [|lia].
  destruct (decide (Host u = host)); simpl; lia.
Qed.

Lemma flat_map_length_le {A B} (f : A -> list B) (l : list A) :
  (forall a, length (f a) <= 1)%nat -> (length (flat_map f l) <= length l)%nat.
Proof.
  intros Hf. induction l as [|a l IH]; simpl; [lia|].
  rewrite length_app. specialize (Hf a). lia.
Qed.

Lemma described_urls_length document host :
  (length (described_urls url_Parse document host)
   <= length (examined document))%nat.
Proof.
  unfold described_urls, examined.
  induction urlElementMatches as [|m ms IH]; simpl; [lia|].
  rewrite !length_app, length_map. unfold values_of at 1.
  pose proof (flat_map_length_le (matching_value url_Parse host (snd m))
                (Find (fst m) document) (matching_value_length host (snd m))).
  lia.
Qed.

Lemma elem_of_described_urls document host u :
  u ∈ described_urls url_Parse document host <->
  exists element attr n parsed,
    (element, attr) ∈ urlElementMatches /\
    n ∈ Find element document /\
    Attr attr n = (u, true) /\
    url_Parse u = inl parsed /\ Host parsed = host.
Proof.
  unfold described_urls, values_of.
  rewrite list_elem_of_In, in_flat_map. split.
  - intros ([element attr] & Hm & Hin). simpl in Hin.
    apply in_flat_map in Hin as (n & Hn & Hv).
    unfold matching_value in Hv.
    destruct (Attr attr n) as [v [|]] eqn:Ha; [|destruct Hv].
    destruct (url_Parse v) as [parsed|e] eqn:Hp; [|destruct Hv].
    destruct (decide (Host parsed = host)) as [Hh|]; [|destruct Hv].
    destruct Hv as [->|[]].
    exists element, attr, n, parsed.
    rewrite !list_elem_of_In. auto.
  - intros (element & attr & n & parsed & Hm & Hn & Ha & Hp & Hh).
    exists (element, attr). rewrite <- list_elem_of_In. split; [exact Hm|].
    simpl. apply in_flat_map. exists n.
    rewrite <- list_elem_of_In. split; [exact Hn|].
    unfold matching_value. rewrite Ha, Hp.
    rewrite decide_True by exact Hh. left. reflexivity.
Qed.

End Outcome.

(** X8. What [ExtractURLs] does, for every body, host and parser: if
    the body cannot be read it returns an empty non-nil slice and the
    error; otherwise, if one of the values it hands to [url.Parse] is
    rejected, [log.Fatal] ends the process with the error of the first
    such value in the order [a], [img], [link], [script] and document
    order; otherwise it returns the matching values with a nil error.
    Whether the process ends does not depend on the host. *)
Theorem ExtractURLs_outcome
    (Reader : Type) (NewDocumentFromReader : Reader -> Document + error)
    (url_Parse : string -> URL + error) (body : Reader) (host : string) :
  ExtractURLs Reader NewDocumentFromReader url_Parse body host =
    match NewDocumentFromReader body with
    | inr err => Return (Slice [], Some err)
    | inl document =>
        match firstError url_Parse (examined document) with
        | Some e => Exit e
        | None =>
            Return (Slice (described_urls url_Parse document host), None)
        end
    end.
Proof.
  unfold ExtractURLs.
  destruct (NewDocumentFromReader body) as [document|err]; [|reflexivity].
  rewrite rangeMatches_outcome. fold (examined document).
  destruct (firstError url_Parse (examined document)); reflexivity.
Qed.

(** X9. When [ExtractURLs] returns without an error, a string is among
    the URLs it returns exactly when it is the value of the [href] of
    an [a] or [link] element or of the [src] of an [img] or [script]
    element of the document, that attribute being present, and it
    parses to a URL whose host is the given host. *)
Theorem ExtractURLs_returns_matching_values
    (Reader : Type) (NewDocumentFromReader : Reader -> Document + error)
    (url_Parse : string -> URL + error) (body : Reader) (host : string)
    (document : Document) (urls : slice) (u : string) :
  NewDocumentFromReader body = inl document ->
  ExtractURLs Reader NewDocumentFromReader url_Parse body host
    = Return (urls, None) ->
  (u ∈ elems_of urls <->
   exists element attr n parsed,
     (element, attr) ∈ urlElementMatches /\
     n ∈ Find element document /\
     Attr attr n = (u, true) /\
     url_Parse u = inl parsed /\ Host parsed = host).
Proof.
  intros Hdoc Hret. unfold ExtractURLs in Hret. rewrite Hdoc in Hret.
  rewrite rangeMatches_outcome in Hret.
  destruct (firstError url_Parse _); [discriminate|].
  inversion Hret; subst urls. simpl.
  apply elem_of_described_urls.
Qed.

Lemma ExtractURLs_returns_matching_values_witness :
  "https://www.gov.uk/crown.png"
    ∈ elems_of (Slice (described_urls NetURL.Parse sample_page "www.gov.uk"))
  <->
  exists element attr n parsed,
    (element, attr) ∈ urlElementMatches /\
    n ∈ Find element sample_page /\
    Attr attr n = ("https://www.gov.uk/crown.png", true) /\
    NetURL.Parse "https://www.gov.uk/crown.png" = inl parsed /\
    Host parsed = "www.gov.uk".
Proof.
  apply (ExtractURLs_returns_matching_values _ readParsed NetURL.Parse
           (inl sample_page) "www.gov.uk" sample_page);
    reflexivity.
Defined.

(** X10. [ExtractURLs] returns at most one URL for each [a], [img],
    [link] and [script] element of the document, and never a nil
    slice. *)
Theorem ExtractURLs_at_most_one_per_element
    (Reader : Type) (NewDocumentFromReader : Reader -> Document + error)
    (url_Parse : string -> URL + error) (body : Reader) (host : string)
    (document : Document) (urls : slice) (err : option error) :
  NewDocumentFromReader body = inl document ->
  ExtractURLs Reader NewDocumentFromReader url_Parse body host
    = Return (urls, err) ->
  urls <> nilSlice /\
  (length (elems_of urls)
   <= length (Find "a" document) + length (Find "img" document)
      + length (Find "link" document) + length (Find "script" document))%nat.
Proof.
  intros Hdoc Hret. unfold ExtractURLs in Hret. rewrite Hdoc in Hret.
  rewrite rangeMatches_outcome in Hret.
  destruct (firstError url_Parse _); [discriminate|].
  inversion Hret; subst urls err. split; [discriminate|].
  pose proof (described_urls_length url_Parse document host) as Hlen.
  unfold examined in Hlen. simpl in Hlen.
  rewrite !length_app, !length_map in Hlen. simpl in Hlen.
  eapply Nat.le_trans; [exact Hlen | lia].
Qed.

Lemma ExtractURLs_at_most_one_per_element_witness :
  Slice (described_urls NetURL.Parse sample_page "www.gov.uk") <> nilSlice /\
  (length (elems_of (Slice (described_urls NetURL.Parse sample_page "www.gov.uk")))
   <= length (Find "a" sample_page) + length (Find "img" sample_page)
      + length (Find "link" sample_page) + length (Find "script" sample_page))%nat.
Proof.
  apply (ExtractURLs_at_most_one_per_element _ readParsed NetURL.Parse
           (inl sample_page) "www.gov.uk" sample_page _ None);
    reflexivity.
Defined.

End CrawlerMoreFacts.

(** * Properties of the test suite's [purgeAllKeys] *)
Module PurgeKeysFacts.
Import PurgeKeys.


End PurgeKeysFacts.
